(** * Plugin pipeline of the vicg gateway (lura fork): model and properties

    Shallow embedding of
      - [proxy/request.go]   : [Request], [Clone], [CloneRequest],
                               [CloneRequestHeaders], [CloneRequestParams],
                               [HeaderGet], [Response.Write];
      - the [vicg] factory   : [getPluginFactory], [createNewPlugin],
                               [defaultVicgFactory.New] and the closure it
                               returns;
      - [plugin/identifycheck]: the identity-check plugin.

    Go pointers are locations of an explicit store, so that aliasing between
    a request and its clone, and the freshness of the response envelope, are
    visible.  A nil pointer dereference (a Go panic) is [None]. *)

From Stdlib Require Import ZArith Strings.Byte Ascii String.
From stdpp Require Import base option gmap strings list sorting.

Local Open Scope string_scope.
Local Open Scope list_scope.
Local Open Scope Z_scope.

(** ** Store *)

Abbreviation loc := positive.

(** Go's [error] values, by their [Error()] text; [None] is the nil error. *)
Abbreviation error := string.

(** Values of type [interface{}] stored in the free-form maps.  The code
    under study stores and forwards them and never looks inside. *)
Inductive iface : Type :=
| INil
| IBool (b : bool)
| IInt (n : Z)
| IFloat (bits : Z)
| IStr (s : string)
| IPtr (l : loc).

Module Request.
(** [proxy.Request]; every reference-typed field ([*url.URL], the maps, the
    [io.ReadCloser]) is a nullable location. *)
Record t : Type := mk {
  Method : string;
  URL : option loc;
  Query : option loc;
  Path : string;
  Body : option loc;
  Params : option loc;
  Headers : option loc;
  Data : option loc;
  Private : option loc;
  Reserved : option loc;
  RemoteAddr : string;
  ContentLength : Z
}.

Definition set_Body (b : option loc) (r : t) : t :=
  mk (Method r) (URL r) (Query r) (Path r) b (Params r) (Headers r)
     (Data r) (Private r) (Reserved r) (RemoteAddr r) (ContentLength r).

Definition set_Headers (x : option loc) (r : t) : t :=
  mk (Method r) (URL r) (Query r) (Path r) (Body r) (Params r) x
     (Data r) (Private r) (Reserved r) (RemoteAddr r) (ContentLength r).

Definition set_Params (x : option loc) (r : t) : t :=
  mk (Method r) (URL r) (Query r) (Path r) (Body r) x (Headers r)
     (Data r) (Private r) (Reserved r) (RemoteAddr r) (ContentLength r).
End Request.

Module Metadata.
Record t : Type := mk {
  Headers : option loc;
  StatusCode : Z
}.
End Metadata.

Module Response.
(** Modelled from the spec: the declaration of [proxy.Response] is not among
    the sources; its fields are those the factory's composite literal and
    [Response.Write], [Header], [WriteHeader] name: a result payload keyed by
    field name, the complete flag, and the metadata (headers, status code). *)
Record t : Type := mk {
  Data : option loc;
  IsComplete : bool;
  Metadata : Metadata.t
}.

Definition set_Data (d : option loc) (r : t) : t :=
  mk d (IsComplete r) (Metadata r).

Definition set_IsComplete (b : bool) (r : t) : t :=
  mk (Data r) b (Metadata r).
End Response.

(** Objects of the store. *)
Inductive obj : Type :=
| OUrl (u : string)
    (** a [url.URL], by its rendering *)
| OValues (m : gmap string (list string))
    (** a [map[string][]string]: request headers, [url.Values] *)
| OParams (m : gmap string string)
    (** a [map[string]string] *)
| OData (m : gmap string (list loc))
    (** a [map[string][]map[string]interface{}] *)
| OIface (m : gmap string iface)
    (** a [map[string]interface{}] *)
| OStream (rest : list byte) (closed : bool)
    (** an [io.ReadCloser] of unknown implementation: what is left to read,
        and whether [Close] was called *)
| OBytes (bs : list byte)
    (** the backing array of a byte slice *)
| OBuffer (arr : loc) (off : nat)
    (** [io.NopCloser] of a [*bytes.Buffer] reading [arr] from [off] *)
| OBytesReader (arr : loc) (off : nat)
    (** [io.NopCloser] of a [*bytes.Reader] over [arr], at [off] *)
| ORequest (r : Request.t)
| OResponse (r : Response.t)
| OOther (repr : list Z).
    (** any other object (plugin state, infrastructure), opaque here *)

Abbreviation heap := (gmap positive obj).

(** [new(T)], [make], [&T{...}]: a location the store does not hold yet. *)
Definition alloc (o : obj) (h : heap) : loc * heap :=
  let l := fresh (dom h) in (l, <[l := o]> h).
Global Arguments alloc : simpl never.

Definition get_request (h : heap) (l : loc) : option Request.t :=
  match h !! l with Some (ORequest r) => Some r | _ => None end.

Definition get_response (h : heap) (l : loc) : option Response.t :=
  match h !! l with Some (OResponse r) => Some r | _ => None end.

Definition get_values (h : heap) (l : loc) : option (gmap string (list string)) :=
  match h !! l with Some (OValues m) => Some m | _ => None end.

Definition get_params (h : heap) (l : loc) : option (gmap string string) :=
  match h !! l with Some (OParams m) => Some m | _ => None end.

Definition get_bytes (h : heap) (l : loc) : option (list byte) :=
  match h !! l with Some (OBytes bs) => Some bs | _ => None end.

(** ** proxy/request.go *)

(** [Request.Clone]: a shallow struct copy of seven fields and [RemoteAddr];
    [Data], [Private], [Reserved] and [ContentLength] keep their zero value. *)
Definition Clone (r : Request.t) : Request.t :=
  Request.mk (Request.Method r) (Request.URL r) (Request.Query r)
             (Request.Path r) (Request.Body r) (Request.Params r)
             (Request.Headers r)
             None None None
             (Request.RemoteAddr r) 0.

(** [CloneRequestHeaders]: a new map; each value slice is copied into a new
    backing array ([make] + [copy]), which at the level of values is the same
    list.  Ranging over a nil map runs no iteration. *)
Definition CloneRequestHeaders (headers : option loc) (h : heap)
  : option (loc * heap) :=
  m ← match headers with
      | None => Some ∅
      | Some l => get_values h l
      end;
  Some (alloc (OValues m) h).

(** [CloneRequestParams] *)
Definition CloneRequestParams (params : option loc) (h : heap)
  : option (loc * heap) :=
  m ← match params with
      | None => Some ∅
      | Some l => get_params h l
      end;
  Some (alloc (OParams m) h).

(** What reading a reader object to the end yields, and the object after it:
    an open stream gives what it has left, a closed one nothing; a buffer or
    a bytes reader gives its array from its offset on. *)
Definition drain (h : heap) (o : obj) : option (list byte * obj) :=
  match o with
  | OStream rest closed =>
      Some (if closed then [] else rest,
            OStream (if closed then rest else []) closed)
  | OBuffer arr off =>
      bs ← get_bytes h arr; Some (drop off bs, OBuffer arr (length bs))
  | OBytesReader arr off =>
      bs ← get_bytes h arr; Some (drop off bs, OBytesReader arr (length bs))
  | _ => None
  end.

(** Reading [body] until it ends: everything the reader still yields, and
    the store with the reader exhausted. *)
Definition read_all (body : loc) (h : heap) : option (list byte * heap) :=
  o ← h !! body;
  '(bs, o') ← drain h o;
  Some (bs, <[body := o']> h).

(** [buf.ReadFrom(body)]: what [body] yields is appended to the array of the
    buffer.  (A read error ends [ReadFrom] like an end of stream does for
    this caller, which drops the result.) *)
Definition ReadFrom (buf body : loc) (h : heap) : option heap :=
  '(bs, h1) ← read_all body h;
  match h1 !! buf with
  | Some (OBuffer arr _) =>
      old ← get_bytes h1 arr; Some (<[arr := OBytes (old ++ bs)]> h1)
  | _ => None
  end.

(** [buf.Bytes()]: the slice over the array of the buffer, not a copy. *)
Definition Bytes (buf : loc) (h : heap) : option loc :=
  match h !! buf with
  | Some (OBuffer arr _) => Some arr
  | _ => None
  end.

(** The reader object after [Close()]; the [io.NopCloser] wrappers do
    nothing. *)
Definition close (o : obj) : option obj :=
  match o with
  | OStream rest _ => Some (OStream rest true)
  | OBuffer arr off => Some (OBuffer arr off)
  | OBytesReader arr off => Some (OBytesReader arr off)
  | _ => None
  end.

(** [body.Close()] *)
Definition Close (body : loc) (h : heap) : option heap :=
  o ← h !! body;
  o' ← close o;
  Some (<[body := o']> h).

(** [CloneRequest].  The result is the location of the clone and the store
    after the call. *)
Definition CloneRequest (r : loc) (h : heap) : option (loc * heap) :=
  rq ← get_request h r;
  let clone := Clone rq in
  '(hd, h1) ← CloneRequestHeaders (Request.Headers rq) h;
  let clone := Request.set_Headers (Some hd) clone in
  '(pm, h2) ← CloneRequestParams (Request.Params rq) h1;
  let clone := Request.set_Params (Some pm) clone in
  match Request.Body rq with
  | None => Some (alloc (ORequest clone) h2)
  | Some body =>
      (* buf := new(bytes.Buffer) *)
      let '(arr, h3) := alloc (OBytes []) h2 in
      let '(buf, h4) := alloc (OBuffer arr 0) h3 in
      (* buf.ReadFrom(r.Body); r.Body.Close() *)
      h5 ← ReadFrom buf body h4;
      h6 ← Close body h5;
      (* r.Body = io.NopCloser(bytes.NewReader(buf.Bytes())) *)
      bytes ← Bytes buf h6;
      let '(rd, h7) := alloc (OBytesReader bytes 0) h6 in
      rq' ← get_request h7 r;
      let h8 := <[r := ORequest (Request.set_Body (Some rd) rq')]> h7 in
      (* clone.Body = io.NopCloser(buf) *)
      let clone := Request.set_Body (Some buf) clone in
      Some (alloc (ORequest clone) h8)
  end.

(** [Request.HeaderGet]: [textproto.MIMEHeader(r.Headers).Get(key)]. *)

Definition is_lower (c : ascii) : bool :=
  (97 <=? N_of_ascii c)%N && (N_of_ascii c <=? 122)%N.

Definition is_upper (c : ascii) : bool :=
  (65 <=? N_of_ascii c)%N && (N_of_ascii c <=? 90)%N.

Definition is_digit (c : ascii) : bool :=
  (48 <=? N_of_ascii c)%N && (N_of_ascii c <=? 57)%N.

(** The bytes of an RFC 7230 token. *)
Definition validHeaderFieldByte (c : ascii) : bool :=
  is_lower c || is_upper c || is_digit c
  || bool_decide (c ∈ String.list_ascii_of_string "!#$%&'*+-.^_`|~").

Fixpoint string_forallb (f : ascii → bool) (s : string) : bool :=
  match s with
  | EmptyString => true
  | String c s' => f c && string_forallb f s'
  end.

Fixpoint canonical_from (upper : bool) (s : string) : string :=
  match s with
  | EmptyString => EmptyString
  | String c s' =>
      let c' :=
        if upper && is_lower c then ascii_of_N (N_of_ascii c - 32)
        else if negb upper && is_upper c then ascii_of_N (N_of_ascii c + 32)
        else c in
      String c' (canonical_from (bool_decide (c' = "-"%char)) s')
  end.

(** [textproto.CanonicalMIMEHeaderKey]: the first letter and every letter
    after a hyphen in upper case, the others in lower case; a key holding a
    byte that is not a token byte is returned as it is. *)
Definition CanonicalMIMEHeaderKey (s : string) : string :=
  if string_forallb validHeaderFieldByte s then canonical_from true s else s.

(** [MIMEHeader.Get]: the first value under the canonical key, or the empty
    string. *)
Definition MIMEHeader_Get (m : gmap string (list string)) (key : string) : string :=
  match m !! CanonicalMIMEHeaderKey key with
  | Some (v :: _) => v
  | _ => ""
  end.

Definition HeaderGet (r : loc) (key : string) (h : heap) : option string :=
  rq ← get_request h r;
  match Request.Headers rq with
  | None => Some ""
  | Some l => m ← get_values h l; Some (MIMEHeader_Get m key)
  end.

(** ** The vicg plugin interface and its factories *)

(** [VicgPlugin].  A handler gets the request and the response by reference
    and works on the store; it returns nil or an error, or panics. *)
Record VicgPlugin : Type := {
  HandleHTTPMessage : loc → loc → heap → option (heap * option error);
  Priority : Z
}.

Module PluginConfig.
(** Modelled from the spec: the declaration of [config.PluginConfig] is not
    among the sources; a plugin declaration is a name, a declared priority
    (the field [Index] the identity-check factory reads) and a free-form
    configuration. *)
Record t : Type := mk {
  Name : string;
  Index : Z;
  ExtraConfig : gmap string iface
}.
End PluginConfig.

Module EndpointConfig.
(** Modelled from the spec: of [config.EndpointConfig], the endpoint and the
    ordered list of its plugin declarations. *)
Record t : Type := mk {
  Endpoint : string;
  Plugins : list PluginConfig.t
}.
End EndpointConfig.

(** [InfraAPI] is the empty interface: some object, or nil. *)
Abbreviation InfraAPI := (option positive).

(** [VicgPluginFactory.New] returns a plugin or an error and may allocate.
    (A factory that returns a nil plugin with a nil error is not modelled.) *)
Record VicgPluginFactory : Type := {
  Factory_New : PluginConfig.t → InfraAPI → heap → heap * (VicgPlugin + error)
}.

(** [defaultVicgFactory]; what its logger receives is the field [logs] of
    the execution state below. *)
Record defaultVicgFactory : Type := {
  pluginFactory : gmap string VicgPluginFactory
}.

Definition getPluginFactory (pf : defaultVicgFactory) (namespace : string)
  : VicgPluginFactory + error :=
  match pluginFactory pf !! namespace with
  | Some f => inl f
  | None => inr ("the plugin '" +:+ namespace +:+ "' not found")
  end.

Definition createNewPlugin (pf : defaultVicgFactory) (cfg : PluginConfig.t)
    (infra : InfraAPI) (h : heap) : heap * (VicgPlugin + error) :=
  match getPluginFactory pf (PluginConfig.Name cfg) with
  | inr err => (h, inr err)
  | inl f => Factory_New f cfg infra h
  end.

(** The first loop of [New]: [plugins[i] = p] for each declaration, leaving
    at the first construction error. *)
Fixpoint construct_plugins (pf : defaultVicgFactory) (infra : InfraAPI)
    (cs : list PluginConfig.t) (h : heap) : heap * (list VicgPlugin + error) :=
  match cs with
  | [] => (h, inl [])
  | c :: cs' =>
      match createNewPlugin pf c infra h with
      | (h1, inr err) => (h1, inr err)
      | (h1, inl p) =>
          match construct_plugins pf infra cs' h1 with
          | (h2, inr err) => (h2, inr err)
          | (h2, inl ps) => (h2, inl (p :: ps))
          end
      end
  end.

(** The comparison handed to [sort.Slice]. *)
Definition less (p q : VicgPlugin) : bool := (Priority p <? Priority q)%Z.

(** ** The pipeline closure *)

(** What the logger is given: the two [Infof] calls of the closure. *)
Inductive LogRecord : Type :=
| PluginFailed (priority : Z) (msg : string)
| PluginSlow (priority : Z) (span : Z) (method path : string).

(** State of an execution: the store, the clock (the value of the k-th
    reading of the time, in nanoseconds) with the number of readings made,
    the logger's output, and the positions of the plugins invoked so far (a
    ghost trace). *)
Record Exec : Type := mkExec {
  store : heap;
  clock : nat → Z;
  reads : nat;
  logs : list LogRecord;
  calls : list nat
}.

(** [5 * time.Second], in nanoseconds. *)
Definition sec : Z := 5 * 1000000000.

(** The [for _, p := range plugins] loop; [i] is the position of the head
    of [ps] in the captured list. *)
Fixpoint run_plugins (request response : loc) (i : nat)
    (ps : list VicgPlugin) (st : Exec) : option (Exec * option error) :=
  match ps with
  | [] => Some (st, None)
  | p :: ps' =>
      let tick := clock st (reads st) in
      match HandleHTTPMessage p request response (store st) with
      | None => None
      | Some (h', Some err) =>
          Some (mkExec h' (clock st) (S (reads st))
                       (logs st ++ [PluginFailed (Priority p) err])
                       (calls st ++ [i]),
                Some err)
      | Some (h', None) =>
          let span := clock st (S (reads st)) - tick in
          if sec <? span then
            match get_request h' request with
            | None => None
            | Some rq =>
                run_plugins request response (S i) ps'
                  (mkExec h' (clock st) (S (S (reads st)))
                     (logs st ++ [PluginSlow (Priority p) span
                                    (Request.Method rq) (Request.Path rq)])
                     (calls st ++ [i]))
            end
          else
            run_plugins request response (S i) ps'
              (mkExec h' (clock st) (S (S (reads st))) (logs st)
                      (calls st ++ [i]))
      end
  end.

(** The response literal the closure starts from. *)
Definition new_response (h : heap) : loc * heap :=
  let '(d, h1) := alloc (OIface ∅) h in
  let '(hd, h2) :=
    alloc (OValues {[ "Content-Type" := ["application/VIID+JSON"] ]}) h1 in
  alloc (OResponse (Response.mk (Some d) true (Metadata.mk (Some hd) 200))) h2.

(** A [proxy.Proxy] built by [New]: the closure with the plugin list it
    captured. *)
Record Proxy : Type := {
  captured_plugins : list VicgPlugin
}.

(** Calling the closure: [(response, err)] and the state after the call. *)
Definition Proxy_call (px : Proxy) (request : loc) (st : Exec)
  : option (Exec * (loc * option error)) :=
  let '(response, h1) := new_response (store st) in
  '(st', err) ← run_plugins request response 0 (captured_plugins px)
                  (mkExec h1 (clock st) (reads st) (logs st) (calls st));
  Some (st', (response, err)).

Section Builder.

(** [sort.Slice(x, less)] of Go's library, which sorts [x] by [less] and
    does not promise to keep equal elements in their order. *)
Variable sort_Slice : ∀ A : Type, (A → A → bool) → list A → list A.

(** [defaultVicgFactory.New] *)
Definition defaultVicgFactory_New (pf : defaultVicgFactory)
    (cfg : EndpointConfig.t) (infra : InfraAPI) (h : heap)
  : heap * (Proxy + error) :=
  match construct_plugins pf infra (EndpointConfig.Plugins cfg) h with
  | (h', inr err) => (h', inr err)
  | (h', inl plugins) =>
      (h', inl {| captured_plugins := sort_Slice VicgPlugin less plugins |})
  end.

End Builder.

(** ** plugin/identifycheck *)

Module identifycheck.

Record Plugin : Type := {
  name : string;
  index : Z;
  infra : InfraAPI
}.

Definition Plugin_HandleHTTPMessage (e : Plugin) (request response : loc)
    (h : heap) : option (heap * option error) :=
  identify ← HeaderGet request "User-Identify" h;
  if bool_decide (String.length identify ≠ 20%nat)
  then Some (h, Some "identify check failed")
  else Some (h, None).

Definition Plugin_Priority (e : Plugin) : Z := index e.

(** [*Plugin] as a [vicg.VicgPlugin]. *)
Definition as_VicgPlugin (e : Plugin) : VicgPlugin :=
  {| HandleHTTPMessage := Plugin_HandleHTTPMessage e;
     Priority := Plugin_Priority e |}.

(** [Factory.New] *)
Definition Factory : VicgPluginFactory :=
  {| Factory_New := λ cfg infra h,
       (h, inl (as_VicgPlugin {| index := PluginConfig.Index cfg;
                                 name := PluginConfig.Name cfg;
                                 infra := infra |})) |}.

End identifycheck.

(** ** Response.Write *)

Section Write.

(** [json.Unmarshal(b, &data)] of Go's library, for a variable [data] that
    holds a map: the new value of the variable, the store, and the error. *)
Variable json_Unmarshal :
  list byte → option loc → heap → option loc * heap * option error.

Definition Write (resp : loc) (b : list byte) (h : heap)
  : option (heap * (Z * option error)) :=
  let '(data, h1) := alloc (OIface ∅) h in
  match json_Unmarshal b (Some data) h1 with
  | (_, h2, Some err) => Some (h2, (0, Some err))
  | (data', h2, None) =>
      r ← get_response h2 resp;
      Some (<[resp := OResponse (Response.set_Data data' r)]> h2,
            (Z.of_nat (length b), None))
  end.

End Write.

(** ** Reading a store *)

(** What a read of [body] to the end would still yield. *)
Definition unread (h : heap) (body : loc) : option (list byte) :=
  o ← h !! body; fst <$> drain h o.

(** [Close] has been called on [body], or [body] is an [io.NopCloser]. *)
Definition closed (h : heap) (body : loc) : bool :=
  match h !! body with
  | Some (OStream _ c) => c
  | Some (OBuffer _ _) | Some (OBytesReader _ _) => true
  | _ => false
  end.

(** [h'] holds every object of [h], unchanged. *)
Definition extends (h h' : heap) : Prop :=
  ∀ l, is_Some (h !! l) → h' !! l = h !! l.

(** The maps a request refers to are maps of the right type (what Go's type
    system gives). *)
Definition request_typed (h : heap) (rq : Request.t) : Prop :=
  (∀ l, Request.Headers rq = Some l → is_Some (get_values h l))
  ∧ (∀ l, Request.Params rq = Some l → is_Some (get_params h l)).

(** ** What [sort.Slice] promises *)

(** The requirement on the comparison: a strict weak ordering. *)
Record strict_weak_order {A : Type} (lt : A → A → bool) : Prop := {
  swo_irrefl : ∀ x, lt x x = false;
  swo_trans : ∀ x y z, lt x y = true → lt y z = true → lt x z = true;
  swo_incomp : ∀ x y z, lt x y = false → lt y z = false → lt x z = false
}.

(** The result holds the same elements and no element is less than one
    before it.  Nothing is said of the order of equal elements. *)
Definition sort_Slice_contract
    (sort : ∀ A : Type, (A → A → bool) → list A → list A) : Prop :=
  ∀ (A : Type) (lt : A → A → bool) (l : list A),
    strict_weak_order lt →
    sort A lt l ≡ₚ l ∧ Sorted (λ x y, lt y x = false) (sort A lt l).

(** Declaration order is kept among plugins of equal priority. *)
Definition keeps_declaration_order (declared captured : list VicgPlugin) : Prop :=
  ∀ z : Z,
    filter (λ p, Priority p = z) captured
    = filter (λ p, Priority p = z) declared.

(** Two sorting procedures of Go's [sort] package that meet the contract. *)
Section Sorts.
Context {A : Type} (lt : A → A → bool).

(** One step of [insertionSort]: the new element moves left as long as it
    is less than its left neighbour.  [before] is the sorted prefix, nearest
    neighbour first. *)
Fixpoint move_left (x : A) (before : list A) : list A :=
  match before with
  | [] => [x]
  | y :: before' =>
      if lt x y then y :: move_left x before' else x :: y :: before'
  end.

(** [insertionSort], the whole of [sort.Slice] on a short slice since the
    pattern-defeating quicksort was introduced: a stable procedure. *)
Definition insertionSort (l : list A) : list A :=
  reverse (fold_left (λ before x, move_left x before) l []).

(** The pass [for i := a + 6; i < b; i++ { if less(i, i-6) { swap(i, i-6) } }]:
    [window] holds the six elements before position [i], [rest] the
    elements from [i] on. *)
Fixpoint shell_pass (window rest : list A) : list A :=
  match rest with
  | [] => window
  | x :: rest' =>
      match window with
      | [] => x :: shell_pass [] rest'
      | y :: window' =>
          if lt x y then x :: shell_pass (window' ++ [y]) rest'
          else y :: shell_pass (window' ++ [x]) rest'
      end
  end.

(** The pass with gap 6 followed by [insertionSort], which is how the earlier
    quicksort of the package finishes a short slice: not a stable
    procedure. *)
Definition shellInsertionSort (l : list A) : list A :=
  insertionSort (shell_pass (take 6 l) (drop 6 l)).

End Sorts.

(** ** Executions in which plugins return nil *)

(** [succeed request response ps h h']: run one after the other from store
    [h], the handlers of [ps] all return nil and leave the store [h'], and
    the request is still there after each of them. *)
Inductive succeed (request response : loc)
  : list VicgPlugin → heap → heap → Prop :=
| succeed_nil (h : heap) : succeed request response [] h h
| succeed_cons (p : VicgPlugin) (ps : list VicgPlugin) (h h1 h2 : heap) :
    HandleHTTPMessage p request response h = Some (h1, None) →
    is_Some (get_request h1 request) →
    succeed request response ps h1 h2 →
    succeed request response (p :: ps) h h2.

(** The response at [response] has its complete flag set. *)
Definition is_complete (h : heap) (response : loc) : Prop :=
  ∃ r, get_response h response = Some r ∧ Response.IsComplete r = true.

(** A plugin that never clears the complete flag of the response it is
    given. *)
Definition keeps_complete (p : VicgPlugin) : Prop :=
  ∀ request response h h' err,
    is_complete h response →
    HandleHTTPMessage p request response h = Some (h', err) →
    is_complete h' response.

(** The slow-plugin records. *)
Definition is_slow (r : LogRecord) : bool :=
  match r with PluginSlow _ _ _ _ => true | PluginFailed _ _ => false end.

(** The priority and the elapsed time each slow-plugin record names. *)
Definition slow_summary (l : list LogRecord) : list (Z * Z) :=
  flat_map (λ r, match r with
                 | PluginSlow priority span _ _ => [(priority, span)]
                 | PluginFailed _ _ => []
                 end) l.

(** The slow-plugin records to expect of a run in which no plugin fails: for
    each plugin in turn, one iff the two clock readings around its call are
    more than [sec] apart.  [r] is the number of readings made before. *)
Fixpoint expected_slow (ticks : nat → Z) (r : nat) (ps : list VicgPlugin)
  : list (Z * Z) :=
  match ps with
  | [] => []
  | p :: ps' =>
      let span := ticks (S r) - ticks r in
      (if sec <? span then [(Priority p, span)] else [])
      ++ expected_slow ticks (S (S r)) ps'
  end.

(** ** Plugins, factories and stores used as examples *)

(** A plugin that does nothing and returns nil. *)
Definition pass_plugin (priority : Z) : VicgPlugin :=
  {| HandleHTTPMessage := λ _ _ h, Some (h, None); Priority := priority |}.

(** A plugin that rejects every request with the given message. *)
Definition reject_plugin (priority : Z) (msg : string) : VicgPlugin :=
  {| HandleHTTPMessage := λ _ _ h, Some (h, Some msg); Priority := priority |}.

(** A plugin that sets [response.IsComplete = false] and returns nil. *)
Definition partial_plugin (priority : Z) : VicgPlugin :=
  {| HandleHTTPMessage := λ _ response h,
       r ← get_response h response;
       Some (<[response := OResponse (Response.set_IsComplete false r)]> h, None);
     Priority := priority |}.

Definition pass_factory : VicgPluginFactory :=
  {| Factory_New := λ cfg _ h, (h, inl (pass_plugin (PluginConfig.Index cfg))) |}.

(** Its plugins reject with the name of their declaration. *)
Definition reject_factory : VicgPluginFactory :=
  {| Factory_New := λ cfg _ h,
       (h, inl (reject_plugin (PluginConfig.Index cfg) (PluginConfig.Name cfg))) |}.

(** A factory whose construction fails. *)
Definition failing_factory : VicgPluginFactory :=
  {| Factory_New := λ cfg _ h, (h, inr "bad plugin configuration") |}.

Definition example_factories : defaultVicgFactory :=
  {| pluginFactory :=
       <[ "IdentifyCheck" := identifycheck.Factory ]>
       (<[ "Pass" := pass_factory ]>
       (<[ "X" := reject_factory ]>
       (<[ "Y" := reject_factory ]>
       (<[ "Broken" := failing_factory ]> ∅)))) |}.

Definition declare (name : string) (index : Z) : PluginConfig.t :=
  PluginConfig.mk name index ∅.

(** Seven declarations; [X] and [Y] have the same priority, [X] first. *)
Definition endpoint_with_ties : EndpointConfig.t :=
  EndpointConfig.mk "/ties"
    [declare "X" 2; declare "Y" 2; declare "Pass" 0; declare "Pass" 0;
     declare "Pass" 0; declare "Pass" 0; declare "Pass" 1].

(** [A] with priority 10 declared before [B] with priority 1. *)
Definition endpoint_A_B : EndpointConfig.t :=
  EndpointConfig.mk "/ab" [declare "X" 10; declare "Y" 1].

Definition endpoint_unknown : EndpointConfig.t :=
  EndpointConfig.mk "/unknown"
    [declare "Pass" 3; declare "Missing" 1; declare "Pass" 2].

(** A request with a body, a URL, a query and the free-form maps. *)
Definition example_request : Request.t :=
  Request.mk "GET" (Some 2%positive) (Some 3%positive) "/p" (Some 6%positive)
    (Some 4%positive) (Some 5%positive) (Some 7%positive) (Some 8%positive)
    (Some 9%positive) "10.0.0.1:4000" 2.

Definition example_store (identify : string) : heap :=
  <[ 1%positive := ORequest example_request ]>
  (<[ 2%positive := OUrl "http://gateway/p?q=1" ]>
  (<[ 3%positive := OValues {[ "q" := ["1"] ]} ]>
  (<[ 4%positive := OParams {[ "id" := "9" ]} ]>
  (<[ 5%positive := OValues {[ "User-Identify" := [identify] ]} ]>
  (<[ 6%positive := OStream ["a"%byte; "b"%byte] false ]>
  (<[ 7%positive := OData ∅ ]>
  (<[ 8%positive := OIface {[ "k" := IInt 1 ]} ]>
  (<[ 9%positive := OIface ∅ ]> ∅)))))))).

(** The same request without a body. *)
Definition example_store_no_body : heap :=
  <[ 1%positive := ORequest (Request.set_Body None example_request) ]>
    (example_store "").

(** [m[key] = vs] on the map at [m]. *)
Definition Values_assign (m : loc) (key : string) (vs : list string) (h : heap)
  : option heap :=
  old ← get_values h m; Some (<[ m := OValues (<[ key := vs ]> old) ]> h).

(** A state to start from: store [h], a clock whose k-th reading is
    [ticks k], nothing logged and no plugin invoked. *)
Definition start (h : heap) (ticks : nat → Z) : Exec :=
  mkExec h ticks 0 [] [].

(** A clock: the first plugin takes six seconds, the second one second. *)
Definition six_then_one (k : nat) : Z :=
  match k with
  | 0%nat => 0
  | 1%nat => 6000000000
  | 2%nat => 6000000000
  | _ => 7000000000
  end.

(** A decoder that accepts the text [{}] and nothing else. *)
Definition unmarshal_empty_object (b : list byte) (data : option loc) (h : heap)
  : option loc * heap * option error :=
  match b with
  | [x7b; x7d] => (data, h, None)
  | _ => (data, h, Some "unexpected end of JSON input")
  end.

(** A decoder writes to the map it is given and to what it allocates. *)
Definition decoder_frame
    (json_Unmarshal : list byte → option loc → heap → option loc * heap * option error)
  : Prop :=
  ∀ b data h data' h' err,
    json_Unmarshal b (Some data) h = (data', h', err) →
    ∀ l, is_Some (h !! l) → l ≠ data → h' !! l = h !! l.

(** The two procedures as implementations of [sort.Slice]. *)
Definition sort_Slice_insertion : ∀ A : Type, (A → A → bool) → list A → list A :=
  λ A lt l, insertionSort lt l.

Definition sort_Slice_shell : ∀ A : Type, (A → A → bool) → list A → list A :=
  λ A lt l, shellInsertionSort lt l.

(** What a plugin does on the example request, to tell plugins apart. *)
Definition observe (p : VicgPlugin) : Z * option (option error) :=
  (Priority p,
   snd <$> HandleHTTPMessage p 1%positive 1%positive (example_store "")).

(** The response envelope of a call on the example store, and the store
    once it is allocated. *)
Definition example_response : loc := (new_response (example_store "")).1.

Definition example_store_1 : heap := (new_response (example_store "")).2.

(** A pipeline whose second plugin rejects, and one whose plugins all
    return nil. *)
Definition rejecting_pipeline : Proxy :=
  {| captured_plugins := [pass_plugin 0; reject_plugin 1 "no"; pass_plugin 2] |}.

Definition passing_pipeline : Proxy :=
  {| captured_plugins := [pass_plugin 0; pass_plugin 1] |}.


Definition token19 : string := "0123456789012345678".

Definition token20 : string := "01234567890123456789".

(** * The rest of proxy/request.go *)

(** ** Strings of Go's library *)

(** [s[:n]] and [s[n:]], for [n] within the string. *)
Fixpoint upto (n : nat) (s : string) : string :=
  match n, s with
  | S n', String c s' => String c (upto n' s')
  | _, _ => ""
  end.

Fixpoint from (n : nat) (s : string) : string :=
  match n, s with
  | S n', String _ s' => from n' s'
  | _, _ => s
  end.

(** [strings.Index]: where [substr] first starts in [s], or -1. *)
Fixpoint Index (s substr : string) {struct s} : Z :=
  if String.prefix substr s then 0
  else match s with
       | "" => -1
       | String _ s' =>
           let n := Index s' substr in if n =? -1 then -1 else n + 1
       end.

(** [strings.LastIndex]: where [substr] last starts in [s], or -1. *)
Fixpoint LastIndex (s substr : string) {struct s} : Z :=
  match s with
  | "" => if String.prefix substr "" then 0 else -1
  | String _ s' =>
      let n := LastIndex s' substr in
      if n =? -1 then (if String.prefix substr s then 0 else -1) else n + 1
  end.

(** ** ParseID, SourceIP *)

(** [u.String()] for the URL at [u]. *)
Definition URL_String (u : loc) (h : heap) : option string :=
  match h !! u with Some (OUrl s) => Some s | _ => None end.

(** [Request.ParseID]; a nil [r] or a nil [r.URL] panics. *)
Definition ParseID (r : loc) (h : heap) : option string :=
  rq ← get_request h r;
  u ← Request.URL rq;
  URL ← URL_String u h;
  let index := LastIndex URL "/" in
  Some (from (Z.to_nat (index + 1)) URL).

(** [Request.SourceIP]; the receiver may be nil. *)
Definition SourceIP (r : option loc) (h : heap) : option string :=
  match r with
  | None => Some "127.0.0.2"
  | Some r =>
      real ← HeaderGet r "X-Real-IP" h;
      if bool_decide (real ≠ "") then Some real
      else
        forwarded ← HeaderGet r "X-Forwarded-For" h;
        if bool_decide (forwarded ≠ "") then
          let n := Index forwarded "," in
          if n =? -1 then Some forwarded
          else Some (upto (Z.to_nat n) forwarded)
        else
          rq ← get_request h r;
          let s := Index (Request.RemoteAddr rq) ":" in
          if s =? -1 then Some (Request.RemoteAddr rq)
          else Some (upto (Z.to_nat s) (Request.RemoteAddr rq))
  end.

(** * Properties *)

(** ** Allocation and frames *)

Lemma alloc_inv (o : obj) (h h' : heap) (l : loc) :
  alloc o h = (l, h') → h !! l = None ∧ h' = <[l := o]> h.
Proof.
  unfold alloc. intros [= <- <-]. split; [|done].
  apply not_elem_of_dom, is_fresh.
Qed.

#[local] Opaque alloc.

Lemma extends_refl (h : heap) : extends h h.
Proof. by intros l _. Qed.

Lemma extends_trans (h1 h2 h3 : heap) :
  extends h1 h2 → extends h2 h3 → extends h1 h3.
Proof.
  intros H12 H23 l Hl. rewrite <- (H12 l Hl). apply H23.
  by rewrite (H12 l Hl).
Qed.

Lemma extends_insert_fresh (h : heap) (l : loc) (o : obj) :
  h !! l = None → extends h (<[l := o]> h).
Proof.
  intros Hl k [x Hx]. apply lookup_insert_ne. congruence.
Qed.

Lemma extends_lookup (h h' : heap) (l : loc) (o : obj) :
  extends h h' → h !! l = Some o → h' !! l = Some o.
Proof. intros He Hl. rewrite <- Hl. apply He. by rewrite Hl. Qed.



Lemma extends_get_params (h h' : heap) (l : loc) m :
  extends h h' → get_params h l = Some m → get_params h' l = Some m.
Proof.
  unfold get_params. intros He Hg.
  destruct (h !! l) as [o|] eqn:E; [|done].
  by rewrite (extends_lookup _ _ _ _ He E).
Qed.

Lemma extends_get_bytes (h h' : heap) (l : loc) bs :
  extends h h' → get_bytes h l = Some bs → get_bytes h' l = Some bs.
Proof.
  unfold get_bytes. intros He Hg.
  destruct (h !! l) as [o|] eqn:E; [|done].
  by rewrite (extends_lookup _ _ _ _ He E).
Qed.


(** ** CloneRequest *)

Ltac fresh_facts :=
  repeat match goal with
         | H : <[_ := _]> _ !! _ = None |- _ =>
             apply lookup_insert_None in H as [H ?]
         end.

Ltac name_alloc l h' E :=
  match goal with
  | |- context [alloc ?o ?h] => destruct (alloc o h) as [l h'] eqn:E
  end;
  apply alloc_inv in E as [E ->]; fresh_facts.

Lemma CloneRequestHeaders_ok (headers : option loc) (h : heap) :
  (∀ l, headers = Some l → is_Some (get_values h l)) →
  ∃ l1 m, CloneRequestHeaders headers h = Some (l1, <[l1 := OValues m]> h)
    ∧ h !! l1 = None
    ∧ (∀ l, headers = Some l → get_values h l = Some m)
    ∧ (headers = None → m = ∅).
Proof.
  intros Hty. unfold CloneRequestHeaders.
  assert (∃ m, match headers with
               | Some l => get_values h l
               | None => Some ∅
               end = Some m) as [m Hm].
  { destruct headers as [l|]; [apply Hty|]; eauto. }
  rewrite Hm. simpl. destruct (alloc (OValues m) h) as [l1 h1] eqn:E.
  apply alloc_inv in E as [? ->]. exists l1, m. split_and!; try done.
  - by intros l ->.
  - intros ->. congruence.
Qed.

Lemma CloneRequestParams_ok (params : option loc) (h : heap) :
  (∀ l, params = Some l → is_Some (get_params h l)) →
  ∃ l1 m, CloneRequestParams params h = Some (l1, <[l1 := OParams m]> h)
    ∧ h !! l1 = None
    ∧ (∀ l, params = Some l → get_params h l = Some m)
    ∧ (params = None → m = ∅).
Proof.
  intros Hty. unfold CloneRequestParams.
  assert (∃ m, match params with
               | Some l => get_params h l
               | None => Some ∅
               end = Some m) as [m Hm].
  { destruct params as [l|]; [apply Hty|]; eauto. }
  rewrite Hm. simpl. destruct (alloc (OParams m) h) as [l1 h1] eqn:E.
  apply alloc_inv in E as [? ->]. exists l1, m. split_and!; try done.
  - by intros l ->.
  - intros ->. congruence.
Qed.

Lemma drain_extends (h h' : heap) (o : obj) x :
  extends h h' → drain h o = Some x → drain h' o = Some x.
Proof.
  intros He. destruct o; simpl; try done.
  - destruct (get_bytes h arr) as [bs|] eqn:E; [|done].
    by rewrite (extends_get_bytes _ _ _ _ He E).
  - destruct (get_bytes h arr) as [bs|] eqn:E; [|done].
    by rewrite (extends_get_bytes _ _ _ _ He E).
Qed.

(** A drained reader is a reader: it can be closed, is not a request, and
    once closed it yields nothing more as long as its array is the same. *)
Lemma drain_close (h : heap) (o o1 : obj) (bs : list byte) :
  drain h o = Some (bs, o1) →
  ∃ o2, close o1 = Some o2
    ∧ (∀ rq, o ≠ ORequest rq)
    ∧ (∀ x, o ≠ OBytes x)
    ∧ (match o2 with OStream _ c => c | OBuffer _ _ | OBytesReader _ _ => true
       | _ => false end = true)
    ∧ (∀ h', (∀ arr x, get_bytes h arr = Some x → get_bytes h' arr = Some x) →
             fst <$> drain h' o2 = Some []).
Proof.
  destruct o; simpl; try done.
  - intros [= <- <-]. eexists. split_and!; try done.
  - destruct (get_bytes h arr) as [x|] eqn:E; [|done]. simpl.
    intros [= <- <-]. eexists. split_and!; try done.
    intros h' Hh'. simpl. rewrite (Hh' _ _ E). simpl.
    by rewrite drop_all.
  - destruct (get_bytes h arr) as [x|] eqn:E; [|done]. simpl.
    intros [= <- <-]. eexists. split_and!; try done.
    intros h' Hh'. simpl. rewrite (Hh' _ _ E). simpl.
    by rewrite drop_all.
Qed.

(** C10.  [CloneRequest] on a request without a body leaves every object
    the store held as it was, the request included.  On a request with a
    body it reads the body to its end and closes it, and stores in the
    [Body] field of the request a new reader, at its start, over a new array
    that holds the bytes read; the other fields of the request, and every
    other object the store held, are as they were. *)
Theorem CloneRequest_effect_on_argument (h : heap) (r : loc) (rq : Request.t) :
  get_request h r = Some rq →
  request_typed h rq →
  (Request.Body rq = None →
     ∃ c h', CloneRequest r h = Some (c, h') ∧ extends h h')
  ∧ (∀ b bs, Request.Body rq = Some b → unread h b = Some bs →
     ∃ c h' rd arr, CloneRequest r h = Some (c, h')
       ∧ get_request h' r = Some (Request.set_Body (Some rd) rq)
       ∧ h !! rd = None ∧ h !! arr = None
       ∧ h' !! rd = Some (OBytesReader arr 0)
       ∧ h' !! arr = Some (OBytes bs)
       ∧ unread h' b = Some [] ∧ closed h' b = true
       ∧ (∀ l, is_Some (h !! l) → l ≠ r → l ≠ b → h' !! l = h !! l)).
Proof.
  intros Hrq [Hhd Hpm].
  assert (∃ l1 m1 l2 m2,
    CloneRequestHeaders (Request.Headers rq) h = Some (l1, <[l1 := OValues m1]> h)
    ∧ CloneRequestParams (Request.Params rq) (<[l1 := OValues m1]> h)
      = Some (l2, <[l2 := OParams m2]> (<[l1 := OValues m1]> h))
    ∧ h !! l1 = None ∧ <[l1 := OValues m1]> h !! l2 = None)
    as (l1 & m1 & l2 & m2 & E1 & E2 & Hl1 & Hl2).
  { destruct (CloneRequestHeaders_ok _ h Hhd) as (l1 & m1 & E1 & Hl1 & _).
    destruct (CloneRequestParams_ok (Request.Params rq) (<[l1 := OValues m1]> h))
      as (l2 & m2 & E2 & Hl2 & _).
    { intros l Hl. destruct (Hpm l Hl) as [m Hm]. exists m.
      apply (extends_get_params h); [|done]. by apply extends_insert_fresh. }
    by exists l1, m1, l2, m2. }
  fresh_facts.
  split.
  - intros Hb. unfold CloneRequest. rewrite Hrq. simpl. rewrite E1. simpl.
    rewrite E2. simpl. rewrite Hb.
    name_alloc c h' Hc.
    eexists _, _. split; [done|].
    intros l [x Hx]. rewrite !lookup_insert_ne; congruence.
  - intros b bs Hb Hun.
    unfold unread in Hun. destruct (h !! b) as [o|] eqn:Ho; [|done].
    simpl in Hun. destruct (drain h o) as [[bs' o1]|] eqn:Hd; [|done].
    simpl in Hun. injection Hun as ->.
    destruct (drain_close _ _ _ _ Hd) as (o2 & Hcl & Hnr & Hnb & Hc2 & Hun2).
    assert (h !! r = Some (ORequest rq)) as Hr.
    { unfold get_request in Hrq. destruct (h !! r) as [[]|]; congruence. }
    assert (b ≠ r) as Hbr.
    { intros ->. rewrite Ho in Hr. injection Hr as ->. by eapply Hnr. }
    unfold CloneRequest. rewrite Hrq. simpl. rewrite E1. simpl.
    rewrite E2. simpl. rewrite Hb.
    name_alloc arr h3 Harr.
    name_alloc buf h4 Hbuf.
    unfold ReadFrom, read_all.
    rewrite !(lookup_insert_ne _ _ b) by congruence. rewrite Ho. simpl.
    rewrite (drain_extends h _ o (bs, o1)); [|
      intros k [x Hk]; rewrite !lookup_insert_ne by congruence; done | done].
    simpl. rewrite (lookup_insert_ne _ b buf) by congruence.
    rewrite lookup_insert_eq. unfold get_bytes at 1.
    rewrite !(lookup_insert_ne _ _ arr) by congruence.
    rewrite lookup_insert_eq. simpl.
    unfold Close. rewrite (lookup_insert_ne _ arr b) by congruence.
    rewrite lookup_insert_eq. simpl. rewrite Hcl. simpl.
    unfold Bytes. rewrite !(lookup_insert_ne _ _ buf) by congruence.
    rewrite lookup_insert_eq. simpl.
    name_alloc rd h7 Hrd.
    assert (rd ≠ r ∧ buf ≠ r ∧ arr ≠ r ∧ l2 ≠ r ∧ l1 ≠ r) as (?&?&?&?&?).
    { split_and!; congruence. }
    unfold get_request at 1.
    rewrite !(lookup_insert_ne _ _ r) by congruence. rewrite Hr. simpl.
    name_alloc c h9 Hc.
    eexists _, _, rd, arr.
    split; [done|].
    match goal with
    | |- get_request ?hf r = _ ∧ _ =>
        assert (∀ k x, h !! k = Some x → k ≠ r → k ≠ b → hf !! k = Some x)
          as Hframe
    end.
    { intros k x Hk ? ?. rewrite !lookup_insert_ne by congruence. done. }
    split_and!; try done.
    + unfold get_request. rewrite lookup_insert_ne by done.
      by rewrite lookup_insert_eq.
    + rewrite !(lookup_insert_ne _ _ rd) by congruence.
      by rewrite lookup_insert_eq.
    + rewrite !(lookup_insert_ne _ _ arr) by congruence.
      by rewrite lookup_insert_eq.
    + unfold unread. rewrite !(lookup_insert_ne _ _ b) by congruence.
      rewrite lookup_insert_eq. simpl. apply Hun2.
      intros k x Hk. unfold get_bytes in *.
      destruct (h !! k) as [ok|] eqn:Ek; [|done].
      destruct ok; try done.
      rewrite (Hframe k (OBytes bs0)); [done|done|congruence|].
      intros ->. rewrite Ho in Ek. injection Ek as ->. by eapply Hnb.
    + unfold closed. rewrite !(lookup_insert_ne _ _ b) by congruence.
      by rewrite lookup_insert_eq.
    + intros k [x Hk] ? ?. rewrite Hk. by apply Hframe.
Qed.

(** ** CloneRequest: what the clone shares with the request *)

(** C7 does not hold of the code.  On the example request: the clone is a
    new object with new header and parameter maps and its own reader (over
    the array the request's new reader reads), but its [URL] and [Query] are
    the very locations of the original's, so that an assignment made through
    the clone's [Query] is read through the original's; and the clone has
    lost [Data], [Private], [Reserved] and [ContentLength]. *)
Theorem CloneRequest_is_not_a_deep_copy :
  ∃ c h' rq cq h'' arr,
    CloneRequest 1%positive (example_store "") = Some (c, h')
    ∧ c ≠ 1%positive
    ∧ get_request h' 1%positive = Some rq
    ∧ get_request h' c = Some cq
    ∧ Request.Headers cq ≠ Request.Headers rq
    ∧ Request.Params cq ≠ Request.Params rq
    ∧ Request.Body cq ≠ Request.Body rq
    ∧ (body ← Request.Body cq; h' !! body) = Some (OBuffer arr 0)
    ∧ (body ← Request.Body rq; h' !! body) = Some (OBytesReader arr 0)
    ∧ Request.URL cq = Request.URL rq ∧ Request.URL rq = Some 2%positive
    ∧ Request.Query cq = Request.Query rq ∧ Request.Query rq = Some 3%positive
    ∧ (q ← Request.Query cq; Values_assign q "q" ["changed"] h') = Some h''
    ∧ (q ← Request.Query rq; get_values h'' q)
      = Some {[ "q" := ["changed"] ]}
    ∧ (Request.Data rq, Request.Private rq, Request.Reserved rq,
       Request.ContentLength rq)
      = (Some 7%positive, Some 8%positive, Some 9%positive, 2)
    ∧ (Request.Data cq, Request.Private cq, Request.Reserved cq,
       Request.ContentLength cq)
      = (None, None, None, 0).
Proof.
  eexists _, _, _, _, _, _.
  split; [vm_compute; reflexivity|].
  split; [discriminate|].
  split; [vm_compute; reflexivity|].
  split; [vm_compute; reflexivity|].
  split; [discriminate|].
  split; [discriminate|].
  split; [discriminate|].
  split; [vm_compute; reflexivity|].
  split; [vm_compute; reflexivity|].
  split; [reflexivity|]. split; [reflexivity|].
  split; [reflexivity|]. split; [reflexivity|].
  split; [vm_compute; reflexivity|].
  split; [vm_compute; reflexivity|].
  split; reflexivity.
Qed.

Lemma CloneRequest_effect_on_argument_witness :
  (∃ c h',
     CloneRequest 1%positive example_store_no_body = Some (c, h')
     ∧ extends example_store_no_body h')
  ∧ (∃ c h' rd arr,
       CloneRequest 1%positive (example_store "") = Some (c, h')
       ∧ get_request h' 1%positive
         = Some (Request.set_Body (Some rd) example_request)
       ∧ example_store "" !! rd = None
       ∧ h' !! rd = Some (OBytesReader arr 0)
       ∧ h' !! arr = Some (OBytes ["a"%byte; "b"%byte])
       ∧ unread h' 6%positive = Some []
       ∧ closed h' 6%positive = true).
Proof.
  assert (request_typed (example_store "") example_request) as Htyped.
  { split; intros l [= <-]; eexists; vm_compute; reflexivity. }
  assert (request_typed example_store_no_body
            (Request.set_Body None example_request)) as Htyped'.
  { split; intros l [= <-]; eexists; vm_compute; reflexivity. }
  split.
  - apply (proj1 (CloneRequest_effect_on_argument example_store_no_body
                    1%positive (Request.set_Body None example_request)
                    ltac:(vm_compute; reflexivity) Htyped') eq_refl).
  - destruct (proj2 (CloneRequest_effect_on_argument (example_store "")
                    1%positive example_request
                    ltac:(vm_compute; reflexivity) Htyped)
                6%positive ["a"%byte; "b"%byte] eq_refl
                ltac:(vm_compute; reflexivity))
      as (c & h' & rd & arr & ? & ? & ? & ? & ? & ? & ? & ? & ?).
    by exists c, h', rd, arr.
Defined.

(** ** The two sorting procedures meet the contract *)

Section SortProofs.
Context {A : Type} (lt : A → A → bool) (Hlt : strict_weak_order lt).

Lemma lt_asym (x y : A) : lt x y = true → lt y x = false.
Proof.
  intros Hxy. destruct (lt y x) eqn:Hyx; [|done].
  pose proof (swo_trans lt Hlt x y x Hxy Hyx) as Hxx.
  by rewrite (swo_irrefl lt Hlt) in Hxx.
Qed.

Lemma move_left_perm (x : A) (before : list A) :
  move_left lt x before ≡ₚ x :: before.
Proof.
  induction before as [|y before IH]; simpl; [done|].
  destruct (lt x y); [|done].
  rewrite IH. apply Permutation_swap.
Qed.

Lemma move_left_sorted (x : A) (before : list A) :
  Sorted (λ a b, lt a b = false) before →
  Sorted (λ a b, lt a b = false) (move_left lt x before).
Proof.
  induction 1 as [|y before Hs IH Hhd]; simpl.
  { repeat constructor. }
  destruct (lt x y) eqn:Hxy.
  - constructor; [done|].
    destruct Hhd as [|z before Hyz]; simpl.
    + constructor. by apply lt_asym.
    + destruct (lt x z); constructor; [done|]. by apply lt_asym.
  - repeat constructor; done.
Qed.

Lemma insertion_loop_perm (l before : list A) :
  fold_left (λ before x, move_left lt x before) l before ≡ₚ l ++ before.
Proof.
  revert before. induction l as [|x l IH]; intros before; simpl; [done|].
  rewrite IH, move_left_perm. by rewrite Permutation_middle.
Qed.

Lemma insertion_loop_sorted (l before : list A) :
  Sorted (λ a b, lt a b = false) before →
  Sorted (λ a b, lt a b = false)
         (fold_left (λ before x, move_left lt x before) l before).
Proof.
  revert before. induction l as [|x l IH]; intros before Hs; simpl; [done|].
  by apply IH, move_left_sorted.
Qed.

Lemma insertionSort_perm (l : list A) : insertionSort lt l ≡ₚ l.
Proof.
  unfold insertionSort. rewrite reverse_Permutation, insertion_loop_perm.
  by rewrite app_nil_r.
Qed.

Lemma insertionSort_sorted (l : list A) :
  Sorted (λ x y, lt y x = false) (insertionSort lt l).
Proof.
  unfold insertionSort.
  apply (Sorted_reverse (λ a b, lt a b = false)).
  apply insertion_loop_sorted. constructor.
Qed.

Lemma shell_pass_perm (rest window : list A) :
  shell_pass lt window rest ≡ₚ window ++ rest.
Proof.
  revert window. induction rest as [|x rest IH]; intros window; simpl.
  { by rewrite app_nil_r. }
  destruct window as [|y window].
  { by rewrite IH. }
  destruct (lt x y); rewrite IH; simpl.
  - rewrite <- app_assoc. simpl.
    rewrite <- (Permutation_middle window rest y).
    rewrite <- (Permutation_middle window rest x).
    apply Permutation_swap.
  - rewrite <- app_assoc. simpl.
    by rewrite <- (Permutation_middle window rest x).
Qed.

Lemma shellInsertionSort_perm (l : list A) : shellInsertionSort lt l ≡ₚ l.
Proof.
  unfold shellInsertionSort.
  by rewrite insertionSort_perm, shell_pass_perm, take_drop.
Qed.

End SortProofs.

Example insertionSort_keeps_ties :
  insertionSort (λ x y : Z * string, x.1 <? y.1)
    [(2, "X"); (2, "Y"); (0, "a"); (0, "b"); (0, "c"); (0, "d"); (1, "e")]
  = [(0, "a"); (0, "b"); (0, "c"); (0, "d"); (1, "e"); (2, "X"); (2, "Y")].
Proof. reflexivity. Qed.

Example shellInsertionSort_swaps_ties :
  shellInsertionSort (λ x y : Z * string, x.1 <? y.1)
    [(2, "X"); (2, "Y"); (0, "a"); (0, "b"); (0, "c"); (0, "d"); (1, "e")]
  = [(0, "a"); (0, "b"); (0, "c"); (0, "d"); (1, "e"); (2, "Y"); (2, "X")].
Proof. reflexivity. Qed.

Lemma sort_Slice_insertion_contract : sort_Slice_contract sort_Slice_insertion.
Proof.
  intros A lt l Hlt. split.
  - apply insertionSort_perm.
  - by apply insertionSort_sorted.
Qed.

Lemma sort_Slice_shell_contract : sort_Slice_contract sort_Slice_shell.
Proof.
  intros A lt l Hlt. split.
  - apply shellInsertionSort_perm.
  - by apply insertionSort_sorted.
Qed.

Lemma less_strict_weak_order : strict_weak_order less.
Proof.
  unfold less. split; intros; rewrite ?Z.ltb_lt, ?Z.ltb_ge in *; lia.
Qed.

(** ** The builder *)

Lemma construct_plugins_app (pf : defaultVicgFactory) (infra : InfraAPI)
    (cs1 cs2 : list PluginConfig.t) (h : heap) :
  construct_plugins pf infra (cs1 ++ cs2) h =
  match construct_plugins pf infra cs1 h with
  | (h1, inr err) => (h1, inr err)
  | (h1, inl ps1) =>
      match construct_plugins pf infra cs2 h1 with
      | (h2, inr err) => (h2, inr err)
      | (h2, inl ps2) => (h2, inl (ps1 ++ ps2))
      end
  end.
Proof.
  revert h. induction cs1 as [|c cs1 IH]; intros h; simpl.
  { by destruct (construct_plugins pf infra cs2 h) as [h2 [ps2|err]]. }
  destruct (createNewPlugin pf c infra h) as [h1 [p|err]]; [|done].
  rewrite IH.
  destruct (construct_plugins pf infra cs1 h1) as [h2 [ps1|err]]; [|done].
  by destruct (construct_plugins pf infra cs2 h2) as [h3 [ps2|err]].
Qed.

Lemma New_inv (sort : ∀ A : Type, (A → A → bool) → list A → list A)
    (pf : defaultVicgFactory) (cfg : EndpointConfig.t) (infra : InfraAPI)
    (h h' : heap) (px : Proxy) :
  defaultVicgFactory_New sort pf cfg infra h = (h', inl px) →
  ∃ plugins,
    construct_plugins pf infra (EndpointConfig.Plugins cfg) h = (h', inl plugins)
    ∧ captured_plugins px = sort VicgPlugin less plugins.
Proof.
  unfold defaultVicgFactory_New.
  destruct (construct_plugins pf infra (EndpointConfig.Plugins cfg) h)
    as [h1 [plugins|err]]; [|done].
  intros [= <- <-]. by exists plugins.
Qed.

Lemma construct_plugins_each (pf : defaultVicgFactory) (infra : InfraAPI)
    (cs : list PluginConfig.t) (h h' : heap) (plugins : list VicgPlugin) :
  construct_plugins pf infra cs h = (h', inl plugins) →
  Forall2 (λ c p, ∃ h1 h2, createNewPlugin pf c infra h1 = (h2, inl p))
          cs plugins.
Proof.
  revert h plugins. induction cs as [|c cs IH]; intros h plugins; simpl.
  { intros [= <- <-]. constructor. }
  destruct (createNewPlugin pf c infra h) as [h1 [p|err]] eqn:Ec; [|done].
  destruct (construct_plugins pf infra cs h1) as [h2 [ps|err]] eqn:Ecs; [|done].
  intros [= <- <-]. constructor; [by exists h, h1|]. by eapply IH.
Qed.

Lemma filter_priority_absent (z : Z) (ps : list VicgPlugin) :
  z ∉ Priority <$> ps → filter (λ p, Priority p = z) ps = [].
Proof.
  induction ps as [|p ps IH]; simpl; [done|].
  rewrite not_elem_of_cons. intros [Hp Hps]. rewrite filter_cons.
  destruct (decide (Priority p = z)); [congruence|]. by apply IH.
Qed.

Lemma filter_priority_short (z : Z) (ps : list VicgPlugin) :
  NoDup (Priority <$> ps) →
  (length (filter (λ p, Priority p = z) ps) ≤ 1)%nat.
Proof.
  induction ps as [|p ps IH]; simpl; [lia|].
  intros [Hp Hnd]%NoDup_cons. rewrite filter_cons.
  destruct (decide (Priority p = z)) as [Hz|]; [|by apply IH].
  simpl. rewrite filter_priority_absent; [simpl; lia|]. by rewrite <- Hz.
Qed.

Lemma Permutation_short {X : Type} (l1 l2 : list X) :
  l1 ≡ₚ l2 → (length l2 ≤ 1)%nat → l1 = l2.
Proof.
  destruct l2 as [|x [|y l2]]; simpl; intros Hp Hn.
  - by apply Permutation_nil_r.
  - by apply Permutation_singleton_r.
  - lia.
Qed.

(** C1 (as amended).  Whatever procedure [sort.Slice] runs, as long as it
    meets its contract: when [New] returns a pipeline, the list the closure
    captured holds exactly the plugins constructed from the declarations, in
    non-decreasing order of [Priority()]; declaration order is kept when no
    two plugins have the same priority; and for a plugin of the greater
    priority declared before one of the lesser priority, the captured list
    has the latter first. *)
Theorem New_captures_sorted_plugins
    (sort : ∀ A : Type, (A → A → bool) → list A → list A)
    (pf : defaultVicgFactory) (cfg : EndpointConfig.t) (infra : InfraAPI)
    (h h' : heap) (px : Proxy) :
  sort_Slice_contract sort →
  defaultVicgFactory_New sort pf cfg infra h = (h', inl px) →
  ∃ plugins,
    construct_plugins pf infra (EndpointConfig.Plugins cfg) h = (h', inl plugins)
    ∧ Forall2 (λ c p, ∃ h1 h2, createNewPlugin pf c infra h1 = (h2, inl p))
              (EndpointConfig.Plugins cfg) plugins
    ∧ captured_plugins px ≡ₚ plugins
    ∧ StronglySorted (λ p q, Priority p ≤ Priority q) (captured_plugins px)
    ∧ (NoDup (Priority <$> plugins) →
       keeps_declaration_order plugins (captured_plugins px))
    ∧ (∀ a b, plugins = [a; b] → Priority b < Priority a →
       captured_plugins px = [b; a]).
Proof.
  intros Hsort [plugins [Hc Hpx]]%New_inv. exists plugins.
  pose proof (construct_plugins_each _ _ _ _ _ _ Hc) as Heach.
  destruct (Hsort VicgPlugin less plugins less_strict_weak_order) as [Hperm Hsorted].
  rewrite <- Hpx in Hperm, Hsorted.
  assert (StronglySorted (λ p q, Priority p ≤ Priority q) (captured_plugins px))
    as Hstrong.
  { apply Sorted.Sorted_StronglySorted.
    - intros x y z ? ?. lia.
    - eapply Sorted.Sorted_ind with (P := Sorted (λ p q, Priority p ≤ Priority q));
        [constructor| |exact Hsorted].
      intros a l _ IH Hhd. constructor; [done|].
      destruct Hhd as [|b l Hab]; constructor.
      unfold less in Hab. by apply Z.ltb_ge in Hab. }
  split_and!; try done.
  - intros Hnd z. apply Permutation_short.
    + by rewrite Hperm.
    + by apply filter_priority_short.
  - intros a b -> Hlt.
    symmetry in Hperm.
    destruct (Permutation_length_2_inv Hperm) as [Heq|Heq]; [|done].
    rewrite Heq in Hstrong. apply StronglySorted_inv in Hstrong as [_ Hab].
    apply Forall_cons in Hab as [Hab _]. lia.
Qed.

Lemma New_captures_sorted_plugins_witness :
  let px := {| captured_plugins := [reject_plugin 1 "Y"; reject_plugin 10 "X"] |} in
  defaultVicgFactory_New sort_Slice_shell example_factories endpoint_A_B None ∅
    = (∅, inl px)
  ∧ ∃ plugins,
      construct_plugins example_factories None
        (EndpointConfig.Plugins endpoint_A_B) ∅ = (∅, inl plugins)
      ∧ Forall2 (λ c p, ∃ h1 h2,
                   createNewPlugin example_factories c None h1 = (h2, inl p))
                (EndpointConfig.Plugins endpoint_A_B) plugins
      ∧ captured_plugins px ≡ₚ plugins
      ∧ StronglySorted (λ p q, Priority p ≤ Priority q) (captured_plugins px)
      ∧ (NoDup (Priority <$> plugins) →
         keeps_declaration_order plugins (captured_plugins px))
      ∧ (∀ a b, plugins = [a; b] → Priority b < Priority a →
         captured_plugins px = [b; a])
      ∧ ∃ st',
          Proxy_call px 1%positive (start (example_store "") (λ _, 0))
          = Some (st', (example_response, Some "Y"))
          ∧ calls st' = [0%nat]
          ∧ logs st' = [PluginFailed 1 "Y"].
Proof.
  intros px.
  assert (defaultVicgFactory_New sort_Slice_shell example_factories
            endpoint_A_B None ∅ = (∅, inl px)) as Hnew.
  { vm_compute. reflexivity. }
  split; [exact Hnew|].
  destruct (New_captures_sorted_plugins sort_Slice_shell example_factories
              endpoint_A_B None ∅ ∅ px sort_Slice_shell_contract Hnew)
    as (plugins & H1 & H2 & H3 & H4 & H5 & H6).
  exists plugins. split_and!; try done.
  eexists. split; [vm_compute; reflexivity|]. split; reflexivity.
Defined.

(** C1 as stated fails: with the gap-6 pass and insertion sort, a procedure
    that meets the contract of [sort.Slice], the endpoint that declares [X]
    before [Y] with the same priority gets a pipeline in which [Y] comes
    before [X], and a request is rejected by [Y]. *)
Lemma New_does_not_keep_declaration_order :
  sort_Slice_contract sort_Slice_shell
  ∧ ∃ h' px plugins,
      defaultVicgFactory_New sort_Slice_shell example_factories
        endpoint_with_ties None ∅ = (h', inl px)
      ∧ construct_plugins example_factories None
          (EndpointConfig.Plugins endpoint_with_ties) ∅ = (h', inl plugins)
      ∧ observe <$> filter (λ p, Priority p = 2) plugins
          = [(2, Some (Some "X")); (2, Some (Some "Y"))]
      ∧ observe <$> filter (λ p, Priority p = 2) (captured_plugins px)
          = [(2, Some (Some "Y")); (2, Some (Some "X"))]
      ∧ ¬ keeps_declaration_order plugins (captured_plugins px)
      ∧ ∃ st response,
          Proxy_call px 1%positive (start (example_store "") (λ _, 0))
            = Some (st, (response, Some "Y")).
Proof.
  split; [exact sort_Slice_shell_contract|].
  eexists _, _, _. split; [vm_compute; reflexivity|].
  split; [vm_compute; reflexivity|].
  split; [vm_compute; reflexivity|].
  split; [vm_compute; reflexivity|].
  split.
  - intros Hkeep. specialize (Hkeep 2).
    apply (f_equal (fmap observe)) in Hkeep. vm_compute in Hkeep.
    discriminate Hkeep.
  - eexists _, _. vm_compute. reflexivity.
Qed.

(** C3.  [New] leaves at the first declaration whose construction fails,
    with that error, the store as that construction left it, and no
    pipeline; a declaration whose name the factory map does not hold fails
    with the error "the plugin '<name>' not found". *)
Theorem New_aborts_at_first_failure
    (sort : ∀ A : Type, (A → A → bool) → list A → list A)
    (pf : defaultVicgFactory) (infra : InfraAPI) (endpoint : string)
    (cs1 cs2 : list PluginConfig.t) (c : PluginConfig.t)
    (ps1 : list VicgPlugin) (h h1 : heap) :
  construct_plugins pf infra cs1 h = (h1, inl ps1) →
  (∀ h2 err, createNewPlugin pf c infra h1 = (h2, inr err) →
     defaultVicgFactory_New sort pf
       (EndpointConfig.mk endpoint (cs1 ++ c :: cs2)) infra h = (h2, inr err))
  ∧ (pluginFactory pf !! PluginConfig.Name c = None →
     defaultVicgFactory_New sort pf
       (EndpointConfig.mk endpoint (cs1 ++ c :: cs2)) infra h
     = (h1, inr ("the plugin '" +:+ PluginConfig.Name c +:+ "' not found"))).
Proof.
  intros H1.
  assert (∀ h2 err, createNewPlugin pf c infra h1 = (h2, inr err) →
     defaultVicgFactory_New sort pf
       (EndpointConfig.mk endpoint (cs1 ++ c :: cs2)) infra h = (h2, inr err))
    as Hfirst.
  { intros h2 err Hc. unfold defaultVicgFactory_New. simpl.
    rewrite construct_plugins_app, H1. simpl. by rewrite Hc. }
  split; [exact Hfirst|].
  intros Hnone. apply Hfirst.
  unfold createNewPlugin, getPluginFactory. by rewrite Hnone.
Qed.

Lemma New_aborts_at_first_failure_witness :
  construct_plugins example_factories None [declare "Pass" 3] ∅
    = (∅, inl [pass_plugin 3])
  ∧ defaultVicgFactory_New sort_Slice_insertion example_factories
      (EndpointConfig.mk "/broken"
         ([declare "Pass" 3] ++ declare "Broken" 1 :: [declare "Pass" 2]))
      None ∅
    = (∅, inr "bad plugin configuration")
  ∧ defaultVicgFactory_New sort_Slice_insertion example_factories
      endpoint_unknown None ∅
    = (∅, inr "the plugin 'Missing' not found").
Proof.
  assert (construct_plugins example_factories None [declare "Pass" 3] ∅
          = (∅, inl [pass_plugin 3])) as H1.
  { vm_compute. reflexivity. }
  split; [exact H1|]. split.
  - apply (proj1 (New_aborts_at_first_failure sort_Slice_insertion
                    example_factories None "/broken" [declare "Pass" 3]
                    [declare "Pass" 2] (declare "Broken" 1) [pass_plugin 3]
                    ∅ ∅ H1)).
    vm_compute. reflexivity.
  - apply (proj2 (New_aborts_at_first_failure sort_Slice_insertion
                    example_factories None "/unknown" [declare "Pass" 3]
                    [declare "Pass" 2] (declare "Missing" 1) [pass_plugin 3]
                    ∅ ∅ H1)).
    vm_compute. reflexivity.
Defined.

(** ** The response envelope *)

Lemma new_response_spec (h h1 : heap) (response : loc) :
  new_response h = (response, h1) →
  ∃ d hd,
    h !! response = None ∧ h !! d = None ∧ h !! hd = None
    ∧ response ≠ d ∧ response ≠ hd ∧ d ≠ hd
    ∧ extends h h1
    ∧ h1 !! response
      = Some (OResponse (Response.mk (Some d) true (Metadata.mk (Some hd) 200)))
    ∧ h1 !! d = Some (OIface ∅)
    ∧ h1 !! hd
      = Some (OValues {[ "Content-Type" := ["application/VIID+JSON"] ]}).
Proof.
  unfold new_response.
  destruct (alloc (OIface ∅) h) as [d h2] eqn:Ed.
  destruct (alloc (OValues {[ "Content-Type" := ["application/VIID+JSON"] ]}) h2)
    as [hd h3] eqn:Ehd.
  intros Er. apply alloc_inv in Ed as [Hd ->]. apply alloc_inv in Ehd as [Hhd ->].
  apply alloc_inv in Er as [Hr ->]. fresh_facts.
  exists d, hd. split_and!; try done.
  - intros l [x Hx]. rewrite !lookup_insert_ne; congruence.
  - apply lookup_insert_eq.
  - rewrite !lookup_insert_ne by done. apply lookup_insert_eq.
  - rewrite lookup_insert_ne by done. apply lookup_insert_eq.
Qed.

(** C4.  Every call of the closure allocates the response, its payload map
    and its header map at locations the store did not hold (so nothing of
    the request or of an earlier call refers to them), leaves what the store
    held as it was, and runs the plugins from there: the payload is the empty
    map, the status code 200, the headers the single entry Content-Type,
    and the complete flag is set. *)
Theorem pipeline_starts_from_fresh_response
    (px : Proxy) (request : loc) (st : Exec) :
  ∃ response d hd h1,
    new_response (store st) = (response, h1)
    ∧ store st !! response = None ∧ store st !! d = None
    ∧ store st !! hd = None
    ∧ response ≠ d ∧ response ≠ hd ∧ d ≠ hd
    ∧ extends (store st) h1
    ∧ get_response h1 response
      = Some (Response.mk (Some d) true (Metadata.mk (Some hd) 200))
    ∧ h1 !! d = Some (OIface ∅)
    ∧ h1 !! hd
      = Some (OValues {[ "Content-Type" := ["application/VIID+JSON"] ]})
    ∧ Proxy_call px request st
      = ('(st', err) ← run_plugins request response 0 (captured_plugins px)
                         (mkExec h1 (clock st) (reads st) (logs st) (calls st));
         Some (st', (response, err)))
    ∧ (captured_plugins px = [] →
       Proxy_call px request st
       = Some (mkExec h1 (clock st) (reads st) (logs st) (calls st),
               (response, None))).
Proof.
  destruct (new_response (store st)) as [response h1] eqn:E.
  destruct (new_response_spec _ _ _ E)
    as (d & hd & ? & ? & ? & ? & ? & ? & ? & Hr & ? & ?).
  exists response, d, hd, h1. split_and!; try done.
  - unfold get_response. by rewrite Hr.
  - unfold Proxy_call. by rewrite E.
  - intros Hnil. unfold Proxy_call. by rewrite E, Hnil.
Qed.

(** ** The loop over the plugins *)

Lemma run_plugins_app (request response : loc) (ps1 ps2 : list VicgPlugin)
    (i : nat) (st : Exec) :
  run_plugins request response i (ps1 ++ ps2) st =
  match run_plugins request response i ps1 st with
  | Some (st1, None) =>
      run_plugins request response (i + length ps1) ps2 st1
  | other => other
  end.
Proof.
  revert i st. induction ps1 as [|p ps1 IH]; intros i st; simpl.
  { by rewrite Nat.add_0_r. }
  destruct (HandleHTTPMessage p request response (store st))
    as [[h' [err|]]|]; [done| |done].
  replace (i + S (length ps1))%nat with (S i + length ps1)%nat by lia.
  destruct (sec <? _); [|by rewrite IH].
  destruct (get_request h' request); [|done]. by rewrite IH.
Qed.

Lemma run_succeed (request response : loc) (ps : list VicgPlugin) (h h' : heap) :
  succeed request response ps h h' →
  ∀ (i : nat) (st : Exec), store st = h →
  ∃ st' more,
    run_plugins request response i ps st = Some (st', None)
    ∧ store st' = h'
    ∧ clock st' = clock st
    ∧ reads st' = (reads st + 2 * length ps)%nat
    ∧ calls st' = calls st ++ seq i (length ps)
    ∧ logs st' = logs st ++ more
    ∧ Forall (λ r, is_slow r = true) more
    ∧ slow_summary more = expected_slow (clock st) (reads st) ps.
Proof.
  induction 1 as [h|p ps h h1 h2 Hp [rq Hrq] Hs IH]; intros i st Hst.
  { exists st, []. simpl. rewrite !app_nil_r, Nat.add_0_r.
    split_and!; done. }
  simpl. rewrite Hst, Hp, Hrq.
  destruct (sec <? clock st (S (reads st)) - clock st (reads st)) eqn:Hslow.
  - edestruct (IH (S i) (mkExec h1 (clock st) (S (S (reads st)))
        (logs st ++ [PluginSlow (Priority p)
                       (clock st (S (reads st)) - clock st (reads st))
                       (Request.Method rq) (Request.Path rq)])
        (calls st ++ [i])))
      as (st' & more & Hrun & ? & ? & Hreads & Hcalls & Hlogs & ? & Hsum);
      [done|].
    simpl in *. exists st', (PluginSlow (Priority p)
                       (clock st (S (reads st)) - clock st (reads st))
                       (Request.Method rq) (Request.Path rq) :: more).
    split_and!; try done.
    + lia.
    + by rewrite Hcalls, <- app_assoc.
    + by rewrite Hlogs, <- app_assoc.
    + by constructor.
    + simpl. by rewrite Hsum.
  - edestruct (IH (S i) (mkExec h1 (clock st) (S (S (reads st))) (logs st)
        (calls st ++ [i])))
      as (st' & more & Hrun & ? & ? & Hreads & Hcalls & Hlogs & ? & Hsum);
      [done|].
    simpl in *. exists st', more.
    split_and!; try done.
    + lia.
    + by rewrite Hcalls, <- app_assoc.
Qed.

(** C2.  When the plugins before position [k] all return nil and the plugin
    at position [k] returns an error, the call returns that error and the
    response envelope; the store is the one plugin [k] left (what plugins
    [0..k-1] and then [k] did to the response is all there); the plugins
    invoked are those at positions [0..k], each once, whatever follows
    position [k]; and the failure is logged with the plugin's priority. *)
Theorem pipeline_stops_at_first_error
    (px : Proxy) (request response : loc) (st : Exec) (h1 hk h' : heap)
    (ps1 ps2 : list VicgPlugin) (p : VicgPlugin) (err : error) :
  new_response (store st) = (response, h1) →
  captured_plugins px = ps1 ++ p :: ps2 →
  succeed request response ps1 h1 hk →
  HandleHTTPMessage p request response hk = Some (h', Some err) →
  ∃ st' slow,
    Proxy_call px request st = Some (st', (response, Some err))
    ∧ store st' = h'
    ∧ calls st' = calls st ++ seq 0 (S (length ps1))
    ∧ NoDup (seq 0 (S (length ps1)))
    ∧ logs st' = logs st ++ slow ++ [PluginFailed (Priority p) err]
    ∧ Forall (λ r, is_slow r = true) slow.
Proof.
  intros Hnew Hcap Hs Hp.
  destruct (run_succeed _ _ _ _ _ Hs 0%nat
              (mkExec h1 (clock st) (reads st) (logs st) (calls st)) eq_refl)
    as (st1 & slow & Hrun & Hst1 & _ & _ & Hcalls & Hlogs & Hslow & _).
  cbn [store clock reads logs calls] in *.
  exists (mkExec h' (clock st1) (S (reads st1))
            (logs st1 ++ [PluginFailed (Priority p) err])
            (calls st1 ++ [length ps1])), slow.
  split_and!.
  - unfold Proxy_call. rewrite Hnew, Hcap, run_plugins_app, Hrun.
    cbn [run_plugins]. rewrite Hst1, Hp. done.
  - done.
  - cbn [calls]. by rewrite Hcalls, seq_S, <- app_assoc.
  - apply NoDup_seq.
  - cbn [logs]. by rewrite Hlogs, <- app_assoc.
  - done.
Qed.

Lemma succeed_complete (request response : loc) (ps : list VicgPlugin)
    (h h' : heap) :
  succeed request response ps h h' →
  Forall keeps_complete ps →
  is_complete h response → is_complete h' response.
Proof.
  induction 1 as [h|p ps h h1 h2 Hp _ _ IH]; [done|].
  intros [Hk Hks]%Forall_cons Hc. apply IH; [done|].
  by eapply Hk.
Qed.

(** C6 (as amended).  When every plugin returns nil, the call invokes the
    plugins at positions [0..n-1] in this order, each once, returns the
    response envelope with a nil error, and leaves the store the last plugin
    left; the complete flag of the response is still set provided no plugin
    of the pipeline clears it. *)
Theorem pipeline_runs_every_plugin
    (px : Proxy) (request response : loc) (st : Exec) (h1 h' : heap) :
  new_response (store st) = (response, h1) →
  succeed request response (captured_plugins px) h1 h' →
  ∃ st',
    Proxy_call px request st = Some (st', (response, None))
    ∧ store st' = h'
    ∧ calls st' = calls st ++ seq 0 (length (captured_plugins px))
    ∧ (Forall keeps_complete (captured_plugins px) → is_complete h' response).
Proof.
  intros Hnew Hs.
  destruct (run_succeed _ _ _ _ _ Hs 0%nat
              (mkExec h1 (clock st) (reads st) (logs st) (calls st)) eq_refl)
    as (st1 & slow & Hrun & Hst1 & _ & _ & Hcalls & _).
  simpl in *.
  exists st1. unfold Proxy_call. rewrite Hnew, Hrun. simpl.
  split_and!; try done.
  intros Hk. apply (succeed_complete _ _ _ _ _ Hs Hk).
  destruct (new_response_spec _ _ _ Hnew)
    as (d & hd & _ & _ & _ & _ & _ & _ & _ & Hr & _).
  eexists. unfold get_response. rewrite Hr. done.
Qed.

(** C6 as stated fails: a plugin may clear the flag and return nil. *)
Lemma complete_flag_can_be_cleared :
  ∃ response h1 st' r,
    new_response (example_store "") = (response, h1)
    ∧ Proxy_call {| captured_plugins := [partial_plugin 0] |} 1%positive
        (start (example_store "") (λ _, 0))
      = Some (st', (response, None))
    ∧ succeed 1%positive response [partial_plugin 0] h1 (store st')
    ∧ calls st' = [0%nat]
    ∧ get_response (store st') response = Some r
    ∧ Response.IsComplete r = false.
Proof.
  eexists _, _, _, _. split; [vm_compute; reflexivity|].
  split; [vm_compute; reflexivity|].
  split.
  { econstructor; [vm_compute; reflexivity|eexists; vm_compute; reflexivity|].
    constructor. }
  split; [reflexivity|].
  split; [vm_compute; reflexivity|reflexivity].
Qed.


Lemma pass_plugin_succeeds (priorities : list Z) :
  succeed 1%positive example_response (pass_plugin <$> priorities)
          example_store_1 example_store_1.
Proof.
  induction priorities as [|z zs IH]; simpl; [constructor|].
  econstructor; [reflexivity| |exact IH].
  eexists. vm_compute. reflexivity.
Defined.

Lemma pass_plugin_keeps_complete (z : Z) : keeps_complete (pass_plugin z).
Proof. intros request response h h' err Hc [= <- _]. exact Hc. Defined.

Lemma pipeline_stops_at_first_error_witness :
  ∃ st' slow,
    Proxy_call rejecting_pipeline 1%positive
      (start (example_store "") six_then_one)
    = Some (st', (example_response, Some "no"))
    ∧ store st' = example_store_1
    ∧ calls st' = [] ++ seq 0 2
    ∧ NoDup (seq 0 2)
    ∧ logs st' = [] ++ slow ++ [PluginFailed 1 "no"]
    ∧ Forall (λ r, is_slow r = true) slow.
Proof.
  apply (pipeline_stops_at_first_error rejecting_pipeline 1%positive
           example_response (start (example_store "") six_then_one)
           example_store_1 example_store_1 example_store_1
           [pass_plugin 0] [pass_plugin 2] (reject_plugin 1 "no") "no").
  - vm_compute. reflexivity.
  - reflexivity.
  - exact (pass_plugin_succeeds [0]).
  - reflexivity.
Defined.

Lemma pipeline_runs_every_plugin_witness :
  ∃ st',
    Proxy_call passing_pipeline 1%positive
      (start (example_store "") six_then_one)
    = Some (st', (example_response, None))
    ∧ store st' = example_store_1
    ∧ calls st' = [] ++ seq 0 2
    ∧ is_complete example_store_1 example_response.
Proof.
  destruct (pipeline_runs_every_plugin passing_pipeline 1%positive
              example_response (start (example_store "") six_then_one)
              example_store_1 example_store_1)
    as (st' & Hcall & Hstore & Hcalls & Hcomplete).
  - vm_compute. reflexivity.
  - exact (pass_plugin_succeeds [0; 1]).
  - exists st'. split_and!; try done. apply Hcomplete.
    repeat constructor; apply pass_plugin_keeps_complete.
Defined.


(** ** The identity check *)

Example CanonicalMIMEHeaderKey_examples :
  CanonicalMIMEHeaderKey "User-Identify" = "User-Identify"
  ∧ CanonicalMIMEHeaderKey "user-iDENTIFY" = "User-Identify"
  ∧ CanonicalMIMEHeaderKey "user identify" = "user identify".
Proof. by vm_compute. Qed.

Example HeaderGet_examples :
  HeaderGet 1%positive "User-Identify" (example_store token19) = Some token19
  ∧ HeaderGet 1%positive "user-identify" (example_store token20) = Some token20
  ∧ HeaderGet 1%positive "X-Real-IP" (example_store token20) = Some ""
  ∧ HeaderGet 2%positive "User-Identify" (example_store token20) = None.
Proof. by vm_compute. Qed.




(** ** Response.Write *)

(** C9.  [Write] gives [json.Unmarshal] a new empty map.  When the decoding
    returns nil (which it does on a valid JSON object), the [Data] field of
    the response is set to the decoded map, the other fields and every other
    object the store held (the map [Data] referred to before among them) are
    as they were, and the result is the length of [b] and nil.  When the
    decoding fails, the result is 0 and the error, and the response and
    every object the store held are as they were. *)
Theorem Write_replaces_Data_or_leaves_the_response
    (json_Unmarshal : list byte → option loc → heap → option loc * heap * option error)
    (resp : loc) (b : list byte) (h h1 : heap) (r : Response.t) (data : loc) :
  decoder_frame json_Unmarshal →
  get_response h resp = Some r →
  alloc (OIface ∅) h = (data, h1) →
  (∀ data' h2,
     json_Unmarshal b (Some data) h1 = (data', h2, None) →
     ∃ h3,
       Write json_Unmarshal resp b h = Some (h3, (Z.of_nat (length b), None))
       ∧ get_response h3 resp = Some (Response.set_Data data' r)
       ∧ (∀ l, l ≠ resp → h3 !! l = h2 !! l)
       ∧ (∀ l, is_Some (h !! l) → l ≠ resp → h3 !! l = h !! l))
  ∧ (∀ data' h2 err,
     json_Unmarshal b (Some data) h1 = (data', h2, Some err) →
     Write json_Unmarshal resp b h = Some (h2, (0, Some err))
     ∧ get_response h2 resp = Some r
     ∧ extends h h2).
Proof.
  intros Hframe Hr Halloc.
  destruct (alloc_inv _ _ _ _ Halloc) as [Hdata ->].
  assert (∀ data' h2 err,
    json_Unmarshal b (Some data) (<[data := OIface ∅]> h) = (data', h2, err) →
    extends h h2) as Hext.
  { intros data' h2 err Hj l [x Hl].
    assert (l ≠ data) by congruence.
    rewrite (Hframe _ _ _ _ _ _ Hj l).
    - by rewrite lookup_insert_ne.
    - rewrite lookup_insert_ne by done. by rewrite Hl.
    - done. }
  split.
  - intros data' h2 Hj. pose proof (Hext _ _ _ Hj) as He.
    pose proof (extends_lookup h h2 resp) as Hresp.
    unfold get_response in Hr.
    destruct (h !! resp) as [[]|] eqn:Eresp; try done. injection Hr as ->.
    specialize (Hresp _ He eq_refl).
    eexists. unfold Write. rewrite Halloc, Hj. unfold get_response at 1.
    rewrite Hresp. simpl. split; [reflexivity|]. split_and!.
    + unfold get_response. by rewrite lookup_insert_eq.
    + intros l Hl. by rewrite lookup_insert_ne.
    + intros l Hl ?. rewrite lookup_insert_ne by done. by apply He.
  - intros data' h2 err Hj. pose proof (Hext _ _ _ Hj) as He.
    unfold Write. rewrite Halloc, Hj. split_and!; try done.
    unfold get_response in *.
    destruct (h !! resp) as [o|] eqn:Eresp; [|done].
    by rewrite (extends_lookup _ _ _ _ He Eresp).
Qed.

Lemma unmarshal_empty_object_frame : decoder_frame unmarshal_empty_object.
Proof.
  intros b data h data' h' err Hj l _ _.
  unfold unmarshal_empty_object in Hj.
  repeat (case_match; simplify_eq); done.
Defined.

Lemma Write_replaces_Data_or_leaves_the_response_witness :
  (∃ h3,
     Write unmarshal_empty_object example_response [x7b; x7d] example_store_1
     = Some (h3, (2, None))
     ∧ get_response h3 example_response
       = Some (Response.mk (Some 13%positive) true
                 (Metadata.mk (Some 11%positive) 200)))
  ∧ Write unmarshal_empty_object example_response [x7b] example_store_1
    = Some ((alloc (OIface ∅) example_store_1).2,
            (0, Some "unexpected end of JSON input"))
  ∧ get_response (alloc (OIface ∅) example_store_1).2 example_response
    = Some (Response.mk (Some 10%positive) true
              (Metadata.mk (Some 11%positive) 200)).
Proof.
  pose proof (λ b, Write_replaces_Data_or_leaves_the_response
                unmarshal_empty_object example_response b example_store_1
                (alloc (OIface ∅) example_store_1).2
                (Response.mk (Some 10%positive) true
                   (Metadata.mk (Some 11%positive) 200))
                (alloc (OIface ∅) example_store_1).1
                unmarshal_empty_object_frame
                ltac:(vm_compute; reflexivity)
                ltac:(vm_compute; reflexivity)) as T.
  split.
  - destruct (proj1 (T [x7b; x7d]) (Some 13%positive)
                (alloc (OIface ∅) example_store_1).2
                ltac:(vm_compute; reflexivity)) as (h3 & Hw & Hg & _).
    exists h3. split; [exact Hw|exact Hg].
  - destruct (proj2 (T [x7b]) (Some 13%positive)
                (alloc (OIface ∅) example_store_1).2
                "unexpected end of JSON input"
                ltac:(vm_compute; reflexivity)) as (Hw & Hg & _).
    split; [exact Hw|exact Hg].
Defined.
